(** * A shallow embedding of rust-simple-httpie (src/main.rs)

    The program is a small CLI HTTP client.  We embed the parts the
    specification talks about:
    - [KvPair::from_str] (body token parsing),
    - [post]'s construction of the JSON body through a [HashMap],
    - [get_content_type], [print_all], [print_body], [print_with_syntect],
    - [parse_url] and the order of the stages in [main].

    Library code the program calls (url, mime, http's HeaderMap, syntect,
    reqwest's transport) is either modelled from its documented behaviour
    or kept abstract as a Section variable. *)

From stdpp Require Import base gmap strings list sorting.
From Stdlib Require Import Ascii String.
Open Scope string_scope.

(** Rust's [Result<T, anyhow::Error>]; the error is kept as its message. *)
Inductive result (A : Type) : Type :=
| Ok (a : A)
| Err (msg : string).
Arguments Ok {A} a.
Arguments Err {A} msg.

(* ================================================================== *)
(** ** Body tokens: [impl FromStr for KvPair] *)
Module KvParse.

(** [struct KvPair { k: String, v: String }] *)
Record KvPair := mkKvPair { k : string; v : string }.

(** The pieces yielded by [str.split(c)]: every [c] separates two
    pieces, the empty string yields one empty piece. *)
Fixpoint split_on (c : ascii) (s : string) : list string :=
  match s with
  | EmptyString => [EmptyString]
  | String ch rest =>
      let pieces := split_on c rest in
      if Ascii.eqb ch c then EmptyString :: pieces
      else match pieces with
           | p :: ps => String ch p :: ps
           | [] => [String ch EmptyString]
           end
  end.

(** [str.split("=")] *)
Definition split_eq (s : string) : list string := split_on "=" s.

(** [fn from_str(str: &str) -> Result<Self, Self::Err>]:
    the first [split.next()] is the key, the second the value; the rest
    of the iterator is dropped. *)
Definition from_str (s : string) : result KvPair :=
  match split_eq s with
  | [] => Err "Failed to parse: no key found"
  | [_] => Err "Failed to parse: no value found"
  | key :: value :: _ => Ok (mkKvPair key value)
  end.

(** [fn parse_kv_pair(s: &str) -> Result<KvPair>] *)
Definition parse_kv_pair (s : string) : result KvPair := from_str s.

(** A string contains no ['=']. *)
Fixpoint no_eq (s : string) : bool :=
  match s with
  | EmptyString => true
  | String ch rest => negb (Ascii.eqb ch "=") && no_eq rest
  end.

End KvParse.

(* ================================================================== *)
(** ** The POST body: [HashMap] filled in [post], sent with [.json(&map)] *)
Module Body.
Import KvParse.

(** The contents of [let mut map = HashMap::new()] after the loop
    [for kv_pair in post.body.iter() { map.insert(&kv_pair.k, &kv_pair.v); }]:
    [HashMap::insert] on a present key replaces the value. *)
Definition post_map (body : list KvPair) : gmap string string :=
  fold_left (fun m kv => <[k kv := v kv]> m) body ∅.

(** The JSON value [serde_json] produces for a map of strings: a flat
    object whose members are string-to-string. *)
Record json := JObj { members : list (string * string) }.

Section Iteration.
(** The iteration order of a std [HashMap] is the order of its buckets,
    which depends on the hash of each key under the map's [RandomState]
    (a seed drawn per process).  [bucket] is the bucket a key falls in
    under that seed. *)
Variable bucket : string -> nat.

(** [map.iter()]: the entries in bucket order. *)
Definition hm_iter (m : gmap string string) : list (string * string) :=
  @merge_sort _ (fun a b => bucket a.1 <= bucket b.1)
    (fun a b => decide (bucket a.1 <= bucket b.1)) (map_to_list m).

(** [serde_json] serialises a map as an object whose members follow the
    map's iteration order; values stay strings. *)
Definition to_json (m : gmap string string) : json :=
  JObj (hm_iter m).

(** The payload of [client.post(&post.url).json(&map)]. *)
Definition post_json (body : list KvPair) : json := to_json (post_map body).

End Iteration.

(** The distinct keys of a body in insertion order (position of the first
    occurrence). *)
Fixpoint insertion_keys (body : list KvPair) : list string :=
  match body with
  | [] => []
  | kv :: rest => k kv :: filter (fun x => x <> k kv) (insertion_keys rest)
  end.

End Body.
(* ================================================================== *)
(** ** Rendering a response: [print_all] and the functions it calls *)
Module Render.

(** [mime::Mime], as parsed: type, subtype and parameters. *)
Record mime := mkMime { mtype : string; msubtype : string;
                        mparams : list (string * string) }.

(** [impl PartialEq for Mime] (type and subtype are stored lowercased by
    the parser, so the comparison is exact). *)
Definition mime_eqb (a b : mime) : bool :=
  String.eqb (mtype a) (mtype b) && String.eqb (msubtype a) (msubtype b)
  && bool_decide (mparams a = mparams b).

(** [mime::TEXT_HTML] and [mime::APPLICATION_JSON]: no parameters. *)
Definition TEXT_HTML : mime := mkMime "text" "html" [].
Definition APPLICATION_JSON : mime := mkMime "application" "json" [].

(** [http::HeaderMap]: one entry per header name, in the order the names
    were first appended, each holding its values in appending order. *)
Abbreviation header_map := (list (string * list (list Byte.byte))).

(** [HeaderMap::append]: a known name gets one more value, a new name a
    new entry at the end. *)
Fixpoint hm_append (h : header_map) (n : string) (val : list Byte.byte)
    : header_map :=
  match h with
  | [] => [(n, [val])]
  | (n', vs) :: rest =>
      if String.eqb n n' then (n', app vs [val]) :: rest
      else (n', vs) :: hm_append rest n val
  end.

(** The map the client builds from the header lines as received. *)
Definition headers_of (received : list (string * list Byte.byte)) : header_map :=
  fold_left (fun h nv => hm_append h nv.1 nv.2) received [].

(** [HeaderMap::get]: the first value of the name. *)
Fixpoint hm_get (h : header_map) (n : string) : option (list Byte.byte) :=
  match h with
  | [] => None
  | (n', vs) :: rest =>
      if String.eqb n n' then head vs else hm_get rest n
  end.

(** [HeaderMap::iter]: entry by entry, every value of an entry in turn. *)
Definition hm_iter (h : header_map) : list (string * list Byte.byte) :=
  flat_map (fun e => map (fun val => (e.1, val)) e.2) h.

(** [reqwest::header::CONTENT_TYPE] *)
Definition CONTENT_TYPE : string := "content-type".

(** [HeaderValue::to_str]: fails unless every byte is visible ASCII
    ([32 <= b < 127]) or a tab. *)
Definition is_visible_ascii (b : Byte.byte) : bool :=
  let n := Byte.to_N b in
  ((32 <=? n) && (n <? 127))%N || (n =? 9)%N.

Definition to_str (hv : list Byte.byte) : result string :=
  if forallb is_visible_ascii hv then Ok (string_of_list_byte hv)
  else Err "failed to convert header to a str".

(** The response handle: what [reqwest::Response] gives the renderer.
    [text] is the outcome of [response.text().await] (a full buffered
    read that can fail). *)
Record response := mkResponse {
  version : string;
  status : string;
  received : list (string * list Byte.byte);
  text : result string }.

Definition headers (r : response) : header_map := headers_of (received r).

Inductive method := GET | POST.

(** The request handed to the transport: method, URL and JSON payload. *)
Record request := mkRequest {
  req_method : method;
  req_url : string;
  req_json : option Body.json }.

(** What the program does that is visible outside: the request it sends,
    and what it writes to standard output. *)
Inductive event : Type :=
| Send (req : request)                      (* network activity *)
| StatusLine (version status : string)     (* [print_status] *)
| HeaderLine (name : string) (value : list Byte.byte)  (* [print_header] *)
| Raw (s : string).                         (* [print!] / [println!] *)

(** How a computation ends: normally, with an error propagated by [?],
    or with a panic. *)
Inductive exit (A : Type) : Type :=
| Normal (a : A)
| Error (e : string)
| Panic (m : string).
Arguments Normal {A} a.
Arguments Error {A} e.
Arguments Panic {A} m.

(** A computation: the output it writes and how it ends. *)
Definition M (A : Type) : Type := list event * exit A.

Definition ret {A} (a : A) : M A := ([], Normal a).

Definition bind {A B} (c : M A) (f : A -> M B) : M B :=
  match c with
  | (o1, Normal a) => let '(o2, r) := f a in (app o1 o2, r)
  | (o1, Error e) => (o1, Error e)
  | (o1, Panic m) => (o1, Panic m)
  end.

Notation "x <-- c ;; k" := (bind c (fun x => k))
  (at level 100, c at next level, right associativity).
Notation "c ;;; k" := (bind c (fun _ => k))
  (at level 100, right associativity).

Definition emit (e : event) : M unit := ([e], Normal tt).

(** [Option::unwrap] and [Result::unwrap] panic on [None] / [Err]. *)
Definition unwrap_opt {A} (o : option A) : M A :=
  match o with
  | Some a => ret a
  | None => ([], Panic "called `Option::unwrap()` on a `None` value")
  end.

Definition unwrap_res {A} (r : result A) : M A :=
  match r with
  | Ok a => ret a
  | Err e => ([], Panic ("called `Result::unwrap()` on an `Err` value: " ++ e))
  end.

(** The [?] operator. *)
Definition try {A} (r : result A) : M A :=
  match r with
  | Ok a => ret a
  | Err e => ([], Error e)
  end.

Fixpoint mapM_ {A} (f : A -> M unit) (l : list A) : M unit :=
  match l with
  | [] => ret tt
  | x :: xs => f x ;;; mapM_ f xs
  end.

(** [syntect::util::LinesWithEndings]: each line keeps its ['\n']; a last
    line without one is yielded as it is; an empty input yields nothing. *)
Fixpoint lines_go (cur : string) (s : string) : list string :=
  match s with
  | EmptyString => if String.eqb cur "" then [] else [cur]
  | String ch rest =>
      if Ascii.eqb ch "010"%char then (cur ++ String ch EmptyString) :: lines_go "" rest
      else lines_go (cur ++ String ch EmptyString) rest
  end.

Definition lines_with_endings (s : string) : list string := lines_go "" s.

End Render.

(* ================================================================== *)
(** ** The program: the libraries it calls and its functions *)
Module Program.
Import KvParse Render.

(** The library services the program relies on, kept abstract:
    - [mime_parse]: [str.parse::<Mime>()];
    - [find_syntax_by_extension], [hl_new] and [highlight_line]:
      syntect's [SyntaxSet::load_defaults_newlines()] lookup,
      [HighlightLines::new(syntax, theme)] and [highlight_line] followed by
      [as_24_bit_terminal_escaped];
    - [url_parse] and [url_serialize]: [Url::parse] and
      [String::from(Url)];
    - [bucket]: the bucket of a key in a [HashMap] under the process's
      hash seed;
    - [send]: reqwest's transport, [.send().await]. *)
Record Libs := mkLibs {
  mime_parse : string -> result mime;
  syntax : Type;
  find_syntax_by_extension : string -> option syntax;
  hl_state : Type;
  hl_new : syntax -> hl_state;
  highlight_line : hl_state -> string -> result (string * hl_state);
  url : Type;
  url_parse : string -> result url;
  url_serialize : url -> string;
  bucket : string -> nat;
  send : request -> result response }.

Section WithLibs.
Variable L : Libs.

(** [fn parse_url(url: &str) -> Result<String>] *)
Definition parse_url (u : string) : result string :=
  match url_parse L u with
  | Ok x => Ok (url_serialize L x)
  | Err e => Err e
  end.

(** [fn get_content_type(response) -> Option<Mime>] *)
Definition get_content_type (r : response) : M (option mime) :=
  match hm_get (headers r) CONTENT_TYPE with
  | None => ret None
  | Some hv =>
      s <-- unwrap_res (to_str hv) ;;
      m <-- unwrap_res (mime_parse L s) ;;
      ret (Some m)
  end.

(** [fn print_status(response)] *)
Definition print_status (r : response) : M unit :=
  emit (StatusLine (version r) (status r)).

(** [fn print_header(response)] *)
Definition print_header (r : response) : M unit :=
  mapM_ (fun nv => emit (HeaderLine nv.1 nv.2)) (hm_iter (headers r)).

(** The loop of [print_with_syntect]: highlight each line and [print!] it. *)
Fixpoint highlight_lines (st : hl_state L) (lines : list string) : M unit :=
  match lines with
  | [] => ret tt
  | line :: rest =>
      p <-- unwrap_res (highlight_line L st line) ;;
      emit (Raw p.1) ;;;
      highlight_lines p.2 rest
  end.

(** [fn print_with_syntect(string: &str, code_type: &str)] *)
Definition print_with_syntect (s : string) (code_type : string) : M unit :=
  syn <-- unwrap_opt (find_syntax_by_extension L code_type) ;;
  highlight_lines (hl_new L syn) (lines_with_endings s).

Definition newline : string := String "010"%char EmptyString.

(** [fn print_body(option_mime: Option<Mime>, body: &String)] *)
Definition print_body (option_mime : option mime) (body : string) : M unit :=
  match option_mime with
  | Some v =>
      if mime_eqb v TEXT_HTML then print_with_syntect body "html"
      else if mime_eqb v APPLICATION_JSON then print_with_syntect body "json"
      else emit (Raw (body ++ newline))
  | None => emit (Raw (body ++ newline))
  end.

(** [async fn print_all(response) -> Result<()>] *)
Definition print_all (r : response) : M unit :=
  print_status r ;;;
  print_header r ;;;
  m <-- get_content_type r ;;
  body <-- try (text r) ;;
  print_body m body ;;;
  ret tt.

(** [async fn get(client, get)] *)
Definition get (u : string) : M unit :=
  let req := mkRequest GET u None in
  emit (Send req) ;;;
  r <-- try (send L req) ;;
  print_all r.

(** [async fn post(client, post)]: the map is filled from the body pairs
    and sent as the JSON payload. *)
Definition post (u : string) (body : list KvPair) : M unit :=
  let req := mkRequest POST u (Some (Body.post_json (bucket L) body)) in
  emit (Send req) ;;;
  r <-- try (send L req) ;;
  print_all r.

(** [enum SubCommands] with the parsed arguments of [Get] and [Post]. *)
Inductive SubCommands :=
| Get (url : string)
| Post (url : string) (body : list KvPair).

(** The command line: [get -u <url>] or [post -u <url> -b <v> ...], each
    [-b] value split on [','] ([value_delimiter = ',']). *)
Inductive cli :=
| CliGet (u : string)
| CliPost (u : string) (b : list string).

Fixpoint parse_all {A} (f : string -> result A) (l : list string) : result (list A) :=
  match l with
  | [] => Ok []
  | x :: xs =>
      match f x with
      | Err e => Err e
      | Ok a => match parse_all f xs with
                | Err e => Err e
                | Ok rest => Ok (a :: rest)
                end
      end
  end.

(** [Opts::parse()]: clap runs the value parsers [parse_url] and
    [parse_kv_pair]. *)
Definition parse_opts (c : cli) : result SubCommands :=
  match c with
  | CliGet u =>
      match parse_url u with
      | Ok s => Ok (Get s)
      | Err e => Err e
      end
  | CliPost u bs =>
      match parse_url u with
      | Err e => Err e
      | Ok s =>
          match parse_all parse_kv_pair (flat_map (split_on ",") bs) with
          | Ok kvs => Ok (Post s kvs)
          | Err e => Err e
          end
      end
  end.

(** The body of [async fn main() -> Result<()>] after argument parsing. *)
Definition run_subcommand (sc : SubCommands) : M unit :=
  match sc with
  | Get u => get u
  | Post u body => post u body
  end.

(** The process as observed from outside. *)
Record process := mkProcess {
  trace : list event;
  stderr : string;
  code : nat }.

(** [main] on a command line in which clap found a subcommand, with the
    runtime and the client built and standard output writable ([exec]
    below adds the other cases): a value-parser error is printed by clap
    and exits with status 2; an [Err] returned from [main] is printed as
    [Error: ...] with status 1; a panic prints the panic message and
    exits with status 101. *)
Definition run_main (c : cli) : process :=
  match parse_opts c with
  | Err e => mkProcess [] ("error: " ++ e) 2
  | Ok sc =>
      match run_subcommand sc with
      | (o, Normal _) => mkProcess o "" 0
      | (o, Error e) => mkProcess o ("Error: " ++ e) 1
      | (o, Panic m) => mkProcess o ("thread 'main' panicked: " ++ m) 101
      end
  end.

(** What clap makes of the raw command line before the value parsers
    run: a subcommand with its values; a malformed command line (unknown
    or missing argument or subcommand); or a request for the text that
    clap generates ([--help], [--version] from [#[clap(version)]], the
    [help] subcommand). *)
Inductive invocation :=
| Invoke (c : cli)
| ClapUsage (e : string)
| ClapDisplay (out : string).

(** The environment of a run: whether the tokio runtime of
    [#[tokio::main]] builds (it is [expect]ed), whether [Client::new()]
    succeeds (it panics otherwise), and which print to standard output
    fails, counting from 0 ([print!]/[println!] panic on a write error,
    e.g. a closed pipe). *)
Record env := mkEnv {
  runtime_build : result unit;
  client_new : result unit;
  stdout_fail : option nat }.

Definition is_stdout (e : event) : bool :=
  match e with
  | Send _ => false
  | _ => true
  end.

(** The events before the [k]-th print to standard output, when the
    trace has one. *)
Fixpoint cut_stdout (k : nat) (o : list event) : option (list event) :=
  match o with
  | [] => None
  | e :: o' =>
      if is_stdout e then
        match k with
        | 0 => Some []
        | S k' => option_map (cons e) (cut_stdout k' o')
        end
      else option_map (cons e) (cut_stdout k o')
  end.

(** A print that fails panics at that point; the run up to it is the
    same, since nothing before it depends on the later prints. *)
Definition with_stdout (f : option nat) (p : process) : process :=
  match f with
  | None => p
  | Some k =>
      match cut_stdout k (trace p) with
      | Some o => mkProcess o "thread 'main' panicked: failed printing to stdout" 101
      | None => p
      end
  end.

(** The whole process: the runtime is built, then [Opts::parse()] runs
    (clap prints help and version text to standard output, ignoring a
    write error, and exits with status 0; it prints usage errors to
    standard error with status 2), then [Client::new()], then the
    subcommand. *)
Definition exec (en : env) (i : invocation) : process :=
  match runtime_build en with
  | Err m => mkProcess [] ("thread 'main' panicked: " ++ m) 101
  | Ok _ =>
      match i with
      | ClapDisplay out =>
          mkProcess (match stdout_fail en with Some 0 => [] | _ => [Raw out] end) "" 0
      | ClapUsage e => mkProcess [] ("error: " ++ e) 2
      | Invoke c =>
          match parse_opts c with
          | Err e => mkProcess [] ("error: " ++ e) 2
          | Ok _ =>
              match client_new en with
              | Err m => mkProcess [] ("thread 'main' panicked: " ++ m) 101
              | Ok _ => with_stdout (stdout_fail en) (run_main c)
              end
          end
      end
  end.

End WithLibs.

End Program.

(* ================================================================== *)
(** ** A concrete instance of the libraries, for running the model *)
Module Demo.
Import KvParse Render Program.

(** A media-type parser for [type/subtype] without parameters. *)
Definition demo_mime_parse (s : string) : result mime :=
  match split_on "/" s with
  | [t; st] =>
      if String.eqb t "" || String.eqb st "" then Err "invalid mime"
      else Ok (mkMime t st [])
  | _ => Err "invalid mime"
  end.

Definition esc : string := String "027"%char "[38;2;192;197;206m".

(** After [https://]: a space is refused in the host and
    percent-encoded from the first ['/'] on. *)
Fixpoint demo_url_rest (in_host : bool) (s : string) : result string :=
  match s with
  | EmptyString => Ok EmptyString
  | String c s' =>
      if Ascii.eqb c " " then
        if in_host then Err "invalid domain character"
        else match demo_url_rest false s' with
             | Ok t => Ok ("%20" ++ t)
             | Err e => Err e
             end
      else match demo_url_rest (in_host && negb (Ascii.eqb c "/")) s' with
           | Ok t => Ok (String c t)
           | Err e => Err e
           end
  end.

(** A URL parser for absolute [https://] URLs, lenient as the url crate
    (WHATWG URL Standard) is: a space in the path is percent-encoded, an
    empty path is serialised as [/]. *)
Definition demo_url_parse (u : string) : result string :=
  if String.prefix "https://" u then
    match demo_url_rest true (String.substring 8 (String.length u - 8) u) with
    | Ok t => Ok ("https://" ++ t)
    | Err e => Err e
    end
  else Err "relative URL without a base".

Definition demo_url_serialize (u : string) : string :=
  if Nat.eqb (List.length (filter (fun c => Ascii.eqb c "/") (list_ascii_of_string u))) 2
  then u ++ "/" else u.

(** The libraries, with a transport that answers every request with
    [resp]. *)
Definition demo_libs (resp : response) : Libs := {|
  mime_parse := demo_mime_parse;
  syntax := string;
  find_syntax_by_extension := fun ext =>
    if String.eqb ext "html" || String.eqb ext "json" then Some ext else None;
  hl_state := string;
  hl_new := fun syn => syn;
  highlight_line := fun st line => Ok (esc ++ line, st);
  url := string;
  url_parse := demo_url_parse;
  url_serialize := demo_url_serialize;
  bucket := String.length;
  send := fun _ => Ok resp |}.

(** A [200 OK] response with the given header lines and body. *)
Definition ok_response (hs : list (string * list Byte.byte)) (body : string) : response :=
  mkResponse "HTTP/1.1" "200 OK" hs (Ok body).

(** A Content-Type value with a non-ASCII byte (["é"] in UTF-8): a valid
    [HeaderValue] (obs-text), refused by [to_str]. *)
Definition non_ascii_ct : list Byte.byte := [Byte.xc3; Byte.xa9].

Definition bytes (s : string) : list Byte.byte := list_byte_of_string s.

(** The same libraries with a transport that fails on every request
    (a DNS or connection error). *)
Definition failing_libs (e : string) : Libs := {|
  mime_parse := demo_mime_parse;
  syntax := string;
  find_syntax_by_extension := fun ext =>
    if String.eqb ext "html" || String.eqb ext "json" then Some ext else None;
  hl_state := string;
  hl_new := fun syn => syn;
  highlight_line := fun st line => Ok (esc ++ line, st);
  url := string;
  url_parse := demo_url_parse;
  url_serialize := demo_url_serialize;
  bucket := String.length;
  send := fun _ => Err e |}.

(** An environment in which the runtime and the client are built and
    every print succeeds. *)
Definition ok_env : env := mkEnv (Ok tt) (Ok tt) None.

End Demo.

(* ================================================================== *)
(** ** Notions used to state the properties *)
Module Spec.
Import Render Program.

(** The distinct header names of the received lines, in the order of
    their first occurrence. *)
Definition names_of (rcv : list (string * list Byte.byte)) : list string :=
  fold_left (fun (ns : list string) (nv : string * list Byte.byte) =>
               if bool_decide (nv.1 ∈ ns) then ns else app ns [nv.1]) rcv [].

(** The values received for one name, in the order received. *)
Definition values_of (rcv : list (string * list Byte.byte)) (n : string)
    : list (list Byte.byte) :=
  map snd (filter (fun nv => nv.1 = n) rcv).

(** The first received value of a header name. *)
Definition first_value (rcv : list (string * list Byte.byte)) (n : string)
    : option (list Byte.byte) :=
  option_map snd (List.find (fun nv => String.eqb n nv.1) rcv).

(** The Content-Type header of a response is absent, or visible ASCII
    and a parseable media type. *)
Definition ct_ok (L : Libs) (r : response) : Prop :=
  match first_value (received r) CONTENT_TYPE with
  | None => True
  | Some hv =>
      forallb is_visible_ascii hv = true /\
      exists m, mime_parse L (string_of_list_byte hv) = Ok m
  end.

(** RFC 3986: every character of a URI is unreserved (ALPHA, DIGIT,
    ["-._~"]), reserved (gen-delims and sub-delims) or the ["%"] of a
    percent-encoding.  A string with any other character is not a
    well-formed absolute URI. *)
Definition uri_char (c : ascii) : bool :=
  let n := nat_of_ascii c in
  ((48 <=? n) && (n <=? 57))%nat || ((65 <=? n) && (n <=? 90))%nat ||
  ((97 <=? n) && (n <=? 122))%nat ||
  existsb (Ascii.eqb c) (list_ascii_of_string "-._~:/?#[]@!$&'()*+,;=%").

Definition uri_chars (s : string) : bool := forallb uri_char (list_ascii_of_string s).

(** Joining pieces with a separator: the inverse of [split_on]. *)
Fixpoint join_on (c : ascii) (ps : list string) : string :=
  match ps with
  | [] => ""
  | p :: rest =>
      match rest with
      | [] => p
      | _ :: _ => p ++ String c (join_on c rest)
      end
  end.

(** A string contains no occurrence of [c]. *)
Definition no_char (c : ascii) (s : string) : bool :=
  forallb (fun ch => negb (Ascii.eqb ch c)) (list_ascii_of_string s).

(** The requests a trace sends. *)
Definition is_send (e : event) : bool :=
  match e with
  | Send _ => true
  | _ => false
  end.

Definition sends (tr : list event) : list event := List.filter is_send tr.

(** A computation that sends no request. *)
Definition quiet {A} (c : M A) : Prop := sends (fst c) = [].

End Spec.

(* ================================================================== *)
(** * Properties *)

(** ** Body tokens *)
Module KvParseFacts.
Import KvParse.

(** Without any ['='] the token is rejected (by the second [next()]). *)
Lemma split_on_no_sep (c : ascii) (s : string) :
  forallb (fun ch => negb (Ascii.eqb ch c)) (list_ascii_of_string s) = true ->
  split_on c s = [s].
Proof.
  induction s as [|ch rest IH]; simpl; [done|].
  intros H. apply andb_prop in H as [Hch Hrest].
  destruct (Ascii.eqb ch c); [discriminate|]. by rewrite IH.
Qed.

Lemma from_str_no_eq (s : string) :
  no_eq s = true -> from_str s = Err "Failed to parse: no value found".
Proof.
  intros H. unfold from_str, split_eq. rewrite split_on_no_sep; [done|].
  induction s as [|ch rest IH]; simpl in *; [done|].
  apply andb_prop in H as [H1 H2]. by rewrite H1, IH.
Qed.

(** [from_str] never takes its ["no key found"] branch: [split] always
    yields a first piece. *)
Lemma split_on_nonempty (c : ascii) (s : string) : split_on c s <> [].
Proof.
  induction s as [|ch rest IH]; simpl; [done|].
  destruct (Ascii.eqb ch c); [done|]. by destruct (split_on c rest).
Qed.

(** C1 (code_bug): on [a=b=c] the value is [b], not [b=c]: the pieces
    after the second are dropped. *)
Lemma from_str_a_b_c : from_str "a=b=c" = Ok (mkKvPair "a" "b").
Proof. reflexivity. Qed.

(** C2 (code_bug): a token with an empty key or an empty value is
    accepted; only a token without ['='] is rejected. *)
Lemma from_str_empty_key_or_value :
  from_str "=v" = Ok (mkKvPair "" "v") /\ from_str "k=" = Ok (mkKvPair "k" "").
Proof. split; reflexivity. Qed.

End KvParseFacts.

(** ** The POST body *)
Module BodyFacts.
Import KvParse Body.

Lemma fold_insert_notin (body : list KvPair) (m : gmap string string) (x : string) :
  x ∉ map k body ->
  fold_left (fun m kv => <[k kv := v kv]> m) body m !! x = m !! x.
Proof.
  revert m. induction body as [|kv rest IH]; intros m Hx; simpl in *; [done|].
  rewrite IH; [|set_solver]. rewrite lookup_insert_ne; [done|set_solver].
Qed.

Lemma fold_insert_is_some (body : list KvPair) (m : gmap string string) (x : string) :
  is_Some (fold_left (fun m kv => <[k kv := v kv]> m) body m !! x) <->
  x ∈ map k body \/ is_Some (m !! x).
Proof.
  revert m. induction body as [|kv rest IH]; intros m; simpl.
  - split; [by right|]. intros [H|H]; [set_solver|done].
  - rewrite IH, lookup_insert. case_decide as Heq; subst; split.
    + intros _. left. set_solver.
    + intros _. by right.
    + intros [H|H]; [left; set_solver|by right].
    + intros [H|H]; [|by right]. apply elem_of_cons in H as [H|H]; [congruence|by left].
Qed.

Lemma post_map_last (pre post : list KvPair) (kv : KvPair) :
  k kv ∉ map k post -> post_map (pre ++ kv :: post) !! k kv = Some (v kv).
Proof.
  intros H. unfold post_map. rewrite fold_left_app. simpl.
  rewrite fold_insert_notin by done. apply lookup_insert_eq.
Qed.

Lemma post_map_dom (body : list KvPair) (x : string) :
  is_Some (post_map body !! x) <-> x ∈ map k body.
Proof.
  unfold post_map. rewrite fold_insert_is_some, lookup_empty.
  split; [intros [H|[? H]]; [done|discriminate]|by left].
Qed.

Lemma post_json_perm (bucket : string -> nat) (body : list KvPair) :
  members (post_json bucket body) ≡ₚ map_to_list (post_map body).
Proof. apply merge_sort_Permutation. Qed.

(** The serialised object holds exactly the entries of the map. *)
Lemma post_json_elem (bucket : string -> nat) (body : list KvPair) (key val : string) :
  (key, val) ∈ members (post_json bucket body) <-> post_map body !! key = Some val.
Proof. rewrite (post_json_perm bucket body). apply elem_of_map_to_list. Qed.

Lemma insertion_keys_elem (body : list KvPair) (x : string) :
  x ∈ insertion_keys body <-> x ∈ map k body.
Proof.
  induction body as [|kv rest IH]; simpl; [done|].
  rewrite !elem_of_cons, list_elem_of_filter, IH.
  destruct (decide (x = k kv)); naive_solver.
Qed.

Lemma insertion_keys_NoDup (body : list KvPair) : NoDup (insertion_keys body).
Proof.
  induction body as [|kv rest IH]; simpl; constructor.
  - rewrite list_elem_of_filter. naive_solver.
  - by apply NoDup_filter.
Qed.

Lemma post_json_keys_perm (bucket : string -> nat) (body : list KvPair) :
  map fst (members (post_json bucket body)) ≡ₚ insertion_keys body.
Proof.
  rewrite (post_json_perm bucket body).
  apply NoDup_Permutation.
  - apply NoDup_fst_map_to_list.
  - apply insertion_keys_NoDup.
  - intros x. rewrite insertion_keys_elem, <- post_map_dom.
    rewrite list_elem_of_In, in_map_iff. split.
    + intros [[x' y] [<- Hin]]. apply list_elem_of_In, elem_of_map_to_list in Hin.
      simpl. by exists y.
    + intros [y Hy]. exists (x, y). split; [done|].
      by apply list_elem_of_In, elem_of_map_to_list.
Qed.

End BodyFacts.

Module BodyClaims.
Import KvParse Body BodyFacts.

(** C3 (counterexample): the members of the JSON body do not follow the
    insertion order of the body pairs.  With the pairs [name=joe,age=5]
    and a hash seed that puts ["age"] in an earlier bucket than ["name"],
    the object is serialised as [age] then [name]. *)
Lemma post_json_order_cex :
  ~ (forall (bucket : string -> nat) (body : list KvPair),
       map fst (members (post_json bucket body)) = insertion_keys body).
Proof.
  intros H.
  specialize (H (fun s => if String.eqb s "name" then 1 else 0)
                [mkKvPair "name" "joe"; mkKvPair "age" "5"]).
  vm_compute in H. discriminate.
Qed.

(** C3 (amended): whatever the hash seed, the JSON object has one member
    per distinct key of the body pairs (its keys are the insertion-ordered
    distinct keys up to permutation), and its members are exactly the
    entries of the [HashMap] built from the pairs. *)
Theorem post_json_entries (bucket : string -> nat) (body : list KvPair) :
  map fst (members (post_json bucket body)) ≡ₚ insertion_keys body /\
  (forall key val,
     (key, val) ∈ members (post_json bucket body) <-> post_map body !! key = Some val).
Proof.
  split; [apply post_json_keys_perm|]. intros key val. apply post_json_elem.
Qed.

(** C4: when a key occurs several times, the map built by [post], and the
    JSON object sent, hold the value of its last occurrence. *)
Theorem post_json_last_wins (bucket : string -> nat) (pre post : list KvPair)
    (kv : KvPair) :
  k kv ∉ map k post ->
  post_map (pre ++ kv :: post) !! k kv = Some (v kv) /\
  (k kv, v kv) ∈ members (post_json bucket (pre ++ kv :: post)).
Proof.
  intros H. pose proof (post_map_last pre post kv H) as Hl.
  split; [done|]. by apply post_json_elem.
Qed.

Lemma post_json_last_wins_witness :
  ("name" ∉ map k [mkKvPair "age" "5"]) /\
  post_map ([mkKvPair "name" "joe"] ++ (mkKvPair "name" "ann" :: [mkKvPair "age" "5"]))
    !! "name" = Some "ann" /\
  ("name", "ann") ∈ members (post_json String.length
     ([mkKvPair "name" "joe"] ++ (mkKvPair "name" "ann" :: [mkKvPair "age" "5"]))).
Proof.
  assert (Hn : "name" ∉ map k [mkKvPair "age" "5"]).
  { apply (bool_decide_unpack _). vm_compute. exact I. }
  split; [exact Hn|].
  exact (post_json_last_wins String.length [mkKvPair "name" "joe"]
           [mkKvPair "age" "5"] (mkKvPair "name" "ann") Hn).
Defined.

End BodyClaims.

(** ** Headers and Content-Type *)
Module HeaderFacts.
Import Render Program Spec.

Lemma hm_get_append (h : header_map) (n n' : string) (val : list Byte.byte) :
  hm_get (hm_append h n' val) n =
  match hm_get h n with
  | Some x => Some x
  | None => if String.eqb n n' then Some val else None
  end.
Proof.
  induction h as [|[m vs] rest IH]; simpl.
  - by destruct (String.eqb n n').
  - destruct (String.eqb n' m) eqn:E1; simpl.
    + apply String.eqb_eq in E1 as ->.
      destruct (String.eqb n m) eqn:E2; [by destruct vs|].
      by destruct (hm_get rest n).
    + destruct (String.eqb n m) eqn:E2; [|apply IH].
      apply String.eqb_eq in E2 as ->. rewrite String.eqb_sym, E1.
      by destruct vs.
Qed.

Lemma hm_get_fold (rcv : list (string * list Byte.byte)) (h : header_map) (n : string) :
  hm_get (fold_left (fun h nv => hm_append h nv.1 nv.2) rcv h) n =
  match hm_get h n with
  | Some x => Some x
  | None => first_value rcv n
  end.
Proof.
  revert h. induction rcv as [|nv rest IH]; intros h; simpl.
  - by destruct (hm_get h n).
  - rewrite IH, hm_get_append. unfold first_value. simpl.
    destruct (hm_get h n); [done|]. by destruct (String.eqb n nv.1).
Qed.

(** [HeaderMap::get] returns the first value received for the name. *)
Lemma hm_get_headers (r : response) (n : string) :
  hm_get (headers r) n = first_value (received r) n.
Proof. unfold headers, headers_of. by rewrite hm_get_fold. Qed.

Lemma names_of_snoc (rcv : list (string * list Byte.byte)) (nv : string * list Byte.byte) :
  names_of (rcv ++ [nv]) =
  if bool_decide (nv.1 ∈ names_of rcv) then names_of rcv else app (names_of rcv) [nv.1].
Proof. unfold names_of. by rewrite fold_left_app. Qed.

Lemma names_of_elem (rcv : list (string * list Byte.byte)) (n : string) :
  n ∈ names_of rcv <-> n ∈ map fst rcv.
Proof.
  induction rcv as [|nv rcv IH] using rev_ind; [simpl; set_solver|].
  rewrite names_of_snoc, map_app. case_bool_decide; simpl; set_solver.
Qed.

Lemma names_of_NoDup (rcv : list (string * list Byte.byte)) : NoDup (names_of rcv).
Proof.
  induction rcv as [|nv rcv IH] using rev_ind; [constructor|].
  rewrite names_of_snoc. case_bool_decide as Hin; [done|].
  apply NoDup_app. split; [done|]. split; [set_solver|]. apply NoDup_singleton.
Qed.

Lemma values_of_snoc (rcv : list (string * list Byte.byte)) (nv : string * list Byte.byte)
    (n : string) :
  values_of (rcv ++ [nv]) n =
  app (values_of rcv n) (if bool_decide (nv.1 = n) then [nv.2] else []).
Proof.
  unfold values_of. rewrite filter_app, map_app. f_equal.
  rewrite filter_cons, filter_nil. by case_bool_decide; case_decide.
Qed.

Lemma values_of_notin (rcv : list (string * list Byte.byte)) (n : string) :
  n ∉ map fst rcv -> values_of rcv n = [].
Proof.
  induction rcv as [|nv rcv IH]; intros Hn; [done|].
  unfold values_of in *. rewrite filter_cons. simpl in Hn.
  case_decide; [set_solver|]. apply IH. set_solver.
Qed.

Lemma hm_append_map (ns : list string) (g : string -> list (list Byte.byte))
    (n : string) (val : list Byte.byte) :
  NoDup ns ->
  hm_append (map (fun m => (m, g m)) ns) n val =
  if bool_decide (n ∈ ns)
  then map (fun m => (m, if bool_decide (m = n) then app (g m) [val] else g m)) ns
  else app (map (fun m => (m, g m)) ns) [(n, [val])].
Proof.
  induction ns as [|m ns IH]; intros Hnd; simpl; [done|].
  apply NoDup_cons in Hnd as [Hm Hnd].
  destruct (String.eqb n m) eqn:E.
  - apply String.eqb_eq in E as ->.
    rewrite bool_decide_true by set_solver. rewrite bool_decide_true by done.
    f_equal. apply map_ext_in. intros m' Hin%list_elem_of_In.
    rewrite bool_decide_false by set_solver. done.
  - apply String.eqb_neq in E. rewrite IH by done.
    rewrite (bool_decide_false (m = n)) by congruence.
    case_bool_decide as H1; case_bool_decide as H2; [done|set_solver|set_solver|done].
Qed.

(** The header map groups the received lines by name: the names in the
    order of their first occurrence, each with its values in the order
    received. *)
Lemma headers_of_grouped (rcv : list (string * list Byte.byte)) :
  headers_of rcv = map (fun n => (n, values_of rcv n)) (names_of rcv).
Proof.
  induction rcv as [|nv rcv IH] using rev_ind; [done|].
  unfold headers_of in *. rewrite fold_left_app. simpl. rewrite IH.
  rewrite hm_append_map by apply names_of_NoDup.
  rewrite names_of_snoc. case_bool_decide as Hin.
  - apply map_ext. intros m. f_equal. rewrite values_of_snoc.
    case_bool_decide; case_bool_decide; subst; [done|congruence|congruence|].
    by rewrite app_nil_r.
  - rewrite map_app. f_equal.
    + apply map_ext_in. intros m Hm%list_elem_of_In. f_equal.
      rewrite values_of_snoc, bool_decide_false by set_solver. by rewrite app_nil_r.
    + simpl. rewrite values_of_snoc, bool_decide_true by done.
      rewrite values_of_notin; [done|]. by rewrite <- names_of_elem.
Qed.

Lemma hm_iter_headers (r : response) :
  hm_iter (headers r) =
  flat_map (fun n => map (fun val => (n, val)) (values_of (received r) n))
           (names_of (received r)).
Proof.
  unfold hm_iter, headers. rewrite headers_of_grouped.
  induction (names_of (received r)) as [|n ns IH]; simpl; [done|]. by rewrite IH.
Qed.

End HeaderFacts.

(** ** Rendering *)
Module RenderFacts.
Import Render Program Spec HeaderFacts.

Lemma mapM_emit {A} (f : A -> event) (l : list A) :
  mapM_ (fun x => emit (f x)) l = (map f l, Normal tt).
Proof.
  induction l as [|x xs IH]; [done|]. simpl. by rewrite IH.
Qed.

Lemma print_header_eq (r : response) :
  print_header r = (map (fun nv => HeaderLine nv.1 nv.2) (hm_iter (headers r)), Normal tt).
Proof. apply mapM_emit. Qed.

Lemma mime_eqb_true (a b : mime) : mime_eqb a b = true <-> a = b.
Proof.
  destruct a as [t1 s1 p1], b as [t2 s2 p2]. unfold mime_eqb. simpl.
  rewrite !andb_true_iff, !String.eqb_eq, bool_decide_eq_true.
  split; [intros [[-> ->] ->]; done|]. intros [=]. subst. auto.
Qed.


(** What [print_all] writes before it looks at the Content-Type. *)
Lemma print_all_unfold (L : Libs) (r : response) :
  print_all L r =
  bind (StatusLine (version r) (status r)
          :: map (fun nv => HeaderLine nv.1 nv.2) (hm_iter (headers r)), Normal tt)
       (fun _ => m <-- get_content_type L r ;;
                 body <-- try (text r) ;;
                 print_body L m body ;;; ret tt).
Proof.
  unfold print_all, print_status, emit. rewrite print_header_eq.
  unfold bind at 1 2. simpl.
  destruct (bind (get_content_type L r) _) as [o x]. reflexivity.
Qed.

Lemma bind_ret_r {A} (c : M A) : bind c (fun a => ret a) = c.
Proof. destruct c as [o [a|e|m]]; unfold bind, ret; simpl; by rewrite ?app_nil_r. Qed.

End RenderFacts.

Module RenderClaims.
Import Render Program Spec Demo HeaderFacts RenderFacts.

(** C5 (counterexample): content-type extraction is not total.  A
    Content-Type value with a non-ASCII byte makes [to_str().unwrap()]
    panic instead of yielding [None]. *)
Lemma get_content_type_cex :
  ~ (forall (L : Libs) (r : response),
       exists o, get_content_type L r = ([], Normal o)).
Proof.
  intros H.
  set (r0 := ok_response [(CONTENT_TYPE, non_ascii_ct)] "hi").
  destruct (H (demo_libs r0) r0) as [o Ho].
  vm_compute in Ho. discriminate.
Qed.

(** C5 (amended): the extraction reads the first Content-Type value.  If
    there is none it returns [None]; if the value is visible ASCII and
    parses as a media type it returns that type; otherwise (a byte that is
    not visible ASCII, or an unparseable media type) it panics. *)
Theorem get_content_type_cases (L : Libs) (r : response) :
  (first_value (received r) CONTENT_TYPE = None ->
   get_content_type L r = ([], Normal None)) /\
  (forall hv m, first_value (received r) CONTENT_TYPE = Some hv ->
     forallb is_visible_ascii hv = true ->
     mime_parse L (string_of_list_byte hv) = Ok m ->
     get_content_type L r = ([], Normal (Some m))) /\
  (forall hv, first_value (received r) CONTENT_TYPE = Some hv ->
     forallb is_visible_ascii hv = false \/
     (exists e, mime_parse L (string_of_list_byte hv) = Err e) ->
     exists msg, get_content_type L r = ([], Panic msg)).
Proof.
  unfold get_content_type. rewrite hm_get_headers.
  split; [|split].
  - by intros ->.
  - intros hv m -> Hvis Hm. unfold to_str. rewrite Hvis. simpl. by rewrite Hm.
  - intros hv -> [Hvis | [e He]]; unfold to_str.
    + rewrite Hvis. simpl. eexists. reflexivity.
    + destruct (forallb is_visible_ascii hv); simpl; [rewrite He|]; eexists; reflexivity.
Qed.

Lemma get_content_type_cases_witness :
  first_value [(CONTENT_TYPE, non_ascii_ct)] CONTENT_TYPE = Some non_ascii_ct /\
  exists msg, get_content_type (demo_libs (ok_response [] "hi"))
                (ok_response [(CONTENT_TYPE, non_ascii_ct)] "hi") = ([], Panic msg).
Proof.
  split; [reflexivity|].
  destruct (get_content_type_cases (demo_libs (ok_response [] "hi"))
              (ok_response [(CONTENT_TYPE, non_ascii_ct)] "hi")) as [_ [_ H3]].
  apply (H3 non_ascii_ct); [reflexivity|]. left. reflexivity.
Defined.

(** C7 (counterexample): with a [text/plain] body, the body is printed
    by [println!], i.e. followed by a newline, not byte-identical. *)
Lemma print_body_plain_cex :
  ~ (forall (L : Libs) (body : string),
       print_body L (Some (mkMime "text" "plain" [])) body = ([Raw body], Normal tt)).
Proof.
  intros H. specialize (H (demo_libs (ok_response [] "")) "abc").
  vm_compute in H. discriminate.
Qed.

(** C7 (amended): [text/html] is highlighted as ["html"],
    [application/json] as ["json"] (both without parameters); any other
    or missing media type prints the body followed by a newline. *)
Theorem print_body_decision (L : Libs) (m : option mime) (body : string) :
  (m = Some TEXT_HTML -> print_body L m body = print_with_syntect L body "html") /\
  (m = Some APPLICATION_JSON -> print_body L m body = print_with_syntect L body "json") /\
  (m <> Some TEXT_HTML -> m <> Some APPLICATION_JSON ->
   print_body L m body = ([Raw (body ++ newline)], Normal tt)).
Proof.
  split; [|split].
  - intros ->. reflexivity.
  - intros ->. reflexivity.
  - intros H1 H2. destruct m as [v|]; [|reflexivity]. simpl.
    destruct (mime_eqb v TEXT_HTML) eqn:E1.
    { apply mime_eqb_true in E1. congruence. }
    destruct (mime_eqb v APPLICATION_JSON) eqn:E2.
    { apply mime_eqb_true in E2. congruence. }
    reflexivity.
Qed.

Lemma print_body_decision_witness :
  Some (mkMime "text" "plain" []) <> Some TEXT_HTML /\
  Some (mkMime "text" "plain" []) <> Some APPLICATION_JSON /\
  print_body (demo_libs (ok_response [] "")) (Some (mkMime "text" "plain" [])) "abc"
    = ([Raw ("abc" ++ newline)], Normal tt).
Proof.
  assert (H1 : Some (mkMime "text" "plain" []) <> Some TEXT_HTML) by discriminate.
  assert (H2 : Some (mkMime "text" "plain" []) <> Some APPLICATION_JSON) by discriminate.
  split; [exact H1|]. split; [exact H2|].
  exact (proj2 (proj2 (print_body_decision (demo_libs (ok_response [] ""))
                         (Some (mkMime "text" "plain" [])) "abc")) H1 H2).
Defined.

End RenderClaims.

Module PrintAllClaims.
Import Render Program Spec Demo HeaderFacts RenderFacts.

(** C9 (counterexample): the body is not printed unconditionally, and
    the headers are not printed in the order received.
    - A Content-Type value with a non-ASCII byte stops the run after the
      headers (a panic), the body ["hi"] is never printed.
    - The lines [a: 1], [b: 2], [a: 3] are printed as [a: 1], [a: 3],
      [b: 2]: the header map groups the values of a name. *)
Lemma print_all_cex :
  ~ (forall (L : Libs) (r : response) (b : string), text r = Ok b -> b <> "" ->
       exists out, out <> [] /\
         fst (print_all L r) =
         StatusLine (version r) (status r)
           :: app (map (fun nv => HeaderLine nv.1 nv.2) (received r)) out) /\
  ~ (forall (L : Libs) (r : response),
       exists out,
         fst (print_all L r) =
         StatusLine (version r) (status r)
           :: app (map (fun nv => HeaderLine nv.1 nv.2) (received r)) out).
Proof.
  split.
  - intros H.
    set (r0 := ok_response [(CONTENT_TYPE, non_ascii_ct)] "hi").
    destruct (H (demo_libs r0) r0 "hi" eq_refl ltac:(discriminate)) as [out [Hne Ho]].
    vm_compute in Ho. injection Ho as Ho. apply Hne.
    symmetry. exact Ho.
  - intros H.
    set (r0 := ok_response [("a", bytes "1"); ("b", bytes "2"); ("a", bytes "3")] "hi").
    destruct (H (demo_libs r0) r0) as [out Ho].
    vm_compute in Ho. inversion Ho.
Qed.

(** C9 (amended): [print_all] prints the status line, then every header
    value in the header map's order (names in the order of their first
    occurrence, all values of a name together, in the order received);
    then, when the Content-Type extraction returns and the body is read,
    what [print_body] prints.  A body read error is returned after the
    status line and headers, and a Content-Type panic ends the run there. *)
Theorem print_all_order (L : Libs) (r : response) :
  let pre := StatusLine (version r) (status r)
               :: map (fun nv => HeaderLine nv.1 nv.2) (hm_iter (headers r)) in
  hm_iter (headers r) =
    flat_map (fun n => map (fun val => (n, val)) (values_of (received r) n))
             (names_of (received r)) /\
  (forall m b, get_content_type L r = ([], Normal m) -> text r = Ok b ->
     print_all L r = (app pre (fst (print_body L m b)), snd (print_body L m b))) /\
  (forall m e, get_content_type L r = ([], Normal m) -> text r = Err e ->
     print_all L r = (pre, Error e)) /\
  (forall msg, get_content_type L r = ([], Panic msg) ->
     print_all L r = (pre, Panic msg)).
Proof.
  intros pre. split; [apply hm_iter_headers|].
  rewrite print_all_unfold. fold pre.
  split; [|split].
  - intros m b Hct Hb. rewrite Hct. unfold bind at 2. simpl.
    rewrite Hb. simpl.
    destruct (print_body L m b) as [o [[]|e|msg]]; simpl; by rewrite ?app_nil_r.
  - intros m e Hct He. rewrite Hct. unfold bind at 2. simpl.
    rewrite He. simpl. by rewrite !app_nil_r.
  - intros msg Hct. rewrite Hct. simpl. by rewrite app_nil_r.
Qed.

Lemma print_all_order_witness :
  get_content_type (demo_libs (ok_response [] "")) (ok_response [] "hi") = ([], Normal None) /\
  print_all (demo_libs (ok_response [] "")) (ok_response [] "hi")
    = (app [StatusLine "HTTP/1.1" "200 OK"] [Raw ("hi" ++ newline)], Normal tt).
Proof.
  assert (Hct : get_content_type (demo_libs (ok_response [] "")) (ok_response [] "hi")
                = ([], Normal None)) by reflexivity.
  split; [exact Hct|].
  exact (proj1 (proj2 (print_all_order (demo_libs (ok_response [] ""))
                         (ok_response [] "hi"))) None "hi" Hct eq_refl).
Defined.

End PrintAllClaims.

(** ** The whole run *)
Module MainFacts.
Import KvParse Render Program Spec HeaderFacts RenderFacts.

Lemma get_content_type_normal (L : Libs) (r : response) :
  ct_ok L r -> exists m, get_content_type L r = ([], Normal m).
Proof.
  unfold ct_ok, get_content_type. rewrite hm_get_headers.
  destruct (first_value (received r) CONTENT_TYPE) as [hv|]; [|eauto].
  intros [Hvis [m Hm]]. unfold to_str. rewrite Hvis. simpl. rewrite Hm. eauto.
Qed.

Lemma emit_bind {B} (e : event) (c : M B) : (emit e ;;; c) = (e :: fst c, snd c).
Proof. by destruct c. Qed.

Section Total.
Variable L : Libs.
Hypothesis Hhtml : find_syntax_by_extension L "html" <> None.
Hypothesis Hjson : find_syntax_by_extension L "json" <> None.
Hypothesis Hhl : forall st line, exists p, highlight_line L st line = Ok p.

Lemma highlight_lines_normal (st : hl_state L) (lines : list string) :
  snd (highlight_lines L st lines) = Normal tt.
Proof.
  revert st. induction lines as [|line rest IH]; intros st; [done|]. simpl.
  destruct (Hhl st line) as [p Hp]. rewrite Hp. simpl.
  specialize (IH p.2). destruct (highlight_lines L p.2 rest). simpl in *. done.
Qed.

Lemma print_with_syntect_normal (s ext : string) :
  find_syntax_by_extension L ext <> None ->
  snd (print_with_syntect L s ext) = Normal tt.
Proof.
  intros Hf. unfold print_with_syntect.
  destruct (find_syntax_by_extension L ext) as [syn|]; [|done]. simpl.
  pose proof (highlight_lines_normal (hl_new L syn) (lines_with_endings s)) as H.
  destruct (highlight_lines L (hl_new L syn) (lines_with_endings s)). simpl in *. done.
Qed.

Lemma print_body_normal (m : option mime) (b : string) :
  snd (print_body L m b) = Normal tt.
Proof.
  unfold print_body. destruct m as [v|]; [|done].
  destruct (mime_eqb v TEXT_HTML); [by apply print_with_syntect_normal|].
  destruct (mime_eqb v APPLICATION_JSON); [by apply print_with_syntect_normal|done].
Qed.

Lemma print_all_no_panic (r : response) :
  ct_ok L r ->
  snd (print_all L r) = Normal tt \/ exists e, snd (print_all L r) = Error e.
Proof.
  intros Hct. destruct (get_content_type_normal L r Hct) as [m Hm].
  rewrite print_all_unfold, Hm. unfold bind at 2. simpl.
  destruct (text r) as [b|e]; simpl; [|eauto].
  pose proof (print_body_normal m b) as Hb.
  destruct (print_body L m b) as [o x]. simpl in *. subst. left. done.
Qed.

Lemma run_subcommand_no_panic (sc : SubCommands) :
  (forall req r, send L req = Ok r -> ct_ok L r) ->
  snd (run_subcommand L sc) = Normal tt \/ exists e, snd (run_subcommand L sc) = Error e.
Proof.
  intros Hsend.
  assert (Hreq : forall req, snd (emit (Send req) ;;; r <-- try (send L req) ;; print_all L r)
                   = Normal tt \/
                 exists e, snd (emit (Send req) ;;; r <-- try (send L req) ;; print_all L r)
                   = Error e).
  { intros req. destruct (send L req) as [r|e] eqn:Hs; simpl; [|eauto].
    destruct (print_all_no_panic r (Hsend req r Hs)) as [H|[e H]];
      destruct (print_all L r) as [o x]; simpl in *; subst; eauto. }
  destruct sc; apply Hreq.
Qed.

End Total.

End MainFacts.

(** Facts about the whole process. *)
Module ExecFacts.
Import KvParse Render Program Spec Demo HeaderFacts RenderFacts MainFacts.

Lemma bind_sends {A B} (c : M A) (f : A -> M B) :
  sends (fst (bind c f)) =
  app (sends (fst c)) (match snd c with Normal a => sends (fst (f a)) | _ => [] end).
Proof.
  destruct c as [o [a|e|m]]; unfold bind; simpl; [|by rewrite app_nil_r..].
  destruct (f a) as [o2 r]. simpl. unfold sends. by rewrite List.filter_app.
Qed.

Lemma quiet_bind {A B} (c : M A) (f : A -> M B) :
  quiet c -> (forall a, quiet (f a)) -> quiet (bind c f).
Proof.
  unfold quiet. intros Hc Hf. rewrite bind_sends, Hc. simpl.
  destruct (snd c); [apply Hf|done..].
Qed.

Lemma quiet_ret {A} (a : A) : quiet (ret a).
Proof. done. Qed.

Lemma quiet_unwrap_opt {A} (o : option A) : quiet (unwrap_opt o).
Proof. by destruct o. Qed.

Lemma quiet_unwrap_res {A} (r : result A) : quiet (unwrap_res r).
Proof. by destruct r. Qed.

Lemma quiet_try {A} (r : result A) : quiet (try r).
Proof. by destruct r. Qed.

Lemma quiet_emit (e : event) : is_send e = false -> quiet (emit e).
Proof. intros H. unfold quiet, sends, emit. simpl. by rewrite H. Qed.

Lemma quiet_mapM_ {A} (f : A -> M unit) (l : list A) :
  (forall x, quiet (f x)) -> quiet (mapM_ f l).
Proof.
  intros Hf. induction l as [|x xs IH]; cbn [mapM_]; [apply quiet_ret|].
  apply quiet_bind; [apply Hf|intros _; apply IH].
Qed.

Lemma quiet_highlight_lines (L : Libs) (st : hl_state L) (lines : list string) :
  quiet (highlight_lines L st lines).
Proof.
  revert st. induction lines as [|line rest IH]; intros st; cbn [highlight_lines];
    [apply quiet_ret|].
  apply quiet_bind; [apply quiet_unwrap_res|intros p].
  apply quiet_bind; [by apply quiet_emit|intros _; apply IH].
Qed.

Lemma quiet_print_body (L : Libs) (m : option mime) (b : string) :
  quiet (print_body L m b).
Proof.
  assert (Hs : forall ext, quiet (print_with_syntect L b ext)).
  { intros ext. unfold print_with_syntect.
    apply quiet_bind; [apply quiet_unwrap_opt|intros; apply quiet_highlight_lines]. }
  unfold print_body. destruct m as [v|]; [|by apply quiet_emit].
  destruct (mime_eqb v TEXT_HTML); [apply Hs|].
  destruct (mime_eqb v APPLICATION_JSON); [apply Hs|by apply quiet_emit].
Qed.

Lemma quiet_print_all (L : Libs) (r : response) : quiet (print_all L r).
Proof.
  unfold print_all.
  apply quiet_bind; [by apply quiet_emit|intros _].
  apply quiet_bind; [apply quiet_mapM_; intros; by apply quiet_emit|intros _].
  apply quiet_bind.
  { unfold get_content_type. destruct (hm_get (headers r) CONTENT_TYPE); [|apply quiet_ret].
    apply quiet_bind; [apply quiet_unwrap_res|intros s].
    apply quiet_bind; [apply quiet_unwrap_res|intros; apply quiet_ret]. }
  intros m. apply quiet_bind; [apply quiet_try|intros b].
  apply quiet_bind; [apply quiet_print_body|intros _; apply quiet_ret].
Qed.

Lemma run_subcommand_one_send (L : Libs) (sc : SubCommands) :
  exists req rest, run_subcommand L sc = (Send req :: fst rest, snd rest) /\
    sends (fst rest) = [] /\ rest = bind (try (send L req)) (print_all L).
Proof.
  destruct sc; simpl; [unfold get|unfold post]; rewrite emit_bind;
    eexists _, _; (split; [reflexivity|]); (split; [|reflexivity]);
    apply quiet_bind; [apply quiet_try| |apply quiet_try|]; apply quiet_print_all.
Qed.



Lemma exec_invoke_ok (L : Libs) (en : env) (c : cli) (sc : SubCommands) :
  runtime_build en = Ok tt -> client_new en = Ok tt -> parse_opts L c = Ok sc ->
  exec L en (Invoke c) = with_stdout (stdout_fail en) (run_main L c).
Proof. intros Hr Hc Hp. unfold exec. by rewrite Hr, Hp, Hc. Qed.

End ExecFacts.

Module MainClaims.
Import KvParse Render Program Spec Demo RenderFacts MainFacts ExecFacts.




(** C8 (counterexample): a string that is not a well-formed absolute URI
    (it holds a space) is accepted by [Url::parse], which follows the
    WHATWG URL Standard: the run sends a request and exits with status 0
    instead of failing argument parsing. *)
Lemma parse_url_lenient_cex :
  ~ (forall (L : Libs) (u : string), uri_chars u = false ->
       code (exec L ok_env (Invoke (CliGet u))) = 2 /\
       trace (exec L ok_env (Invoke (CliGet u))) = []).
Proof.
  intros H.
  destruct (H (demo_libs (ok_response [] "hi")) "https://example.com/a b" eq_refl) as [Hc _].
  vm_compute in Hc. discriminate.
Qed.

(** C8 (amended): a URL that [Url::parse] rejects makes argument parsing
    fail, before the client is built and before any request: in every
    environment whose runtime builds, the run sends nothing, prints
    nothing on standard output and exits with status 2 and clap's error
    message carrying the parser's error, for [get] and [post] alike. *)
Theorem parse_url_error_before_network (L : Libs) (u e : string) (en : env) :
  runtime_build en = Ok tt ->
  url_parse L u = Err e ->
  exec L en (Invoke (CliGet u)) = mkProcess [] ("error: " ++ e) 2 /\
  (forall bs, exec L en (Invoke (CliPost u bs)) = mkProcess [] ("error: " ++ e) 2).
Proof.
  intros Hrt H. unfold exec, parse_opts, parse_url. rewrite Hrt, H.
  split; [done|]. by intros bs.
Qed.

Lemma parse_url_error_before_network_witness :
  url_parse (demo_libs (ok_response [] "hi")) "https://exa mple.com" = Err "invalid domain character" /\
  exec (demo_libs (ok_response [] "hi")) (mkEnv (Ok tt) (Err "no TLS backend") (Some 0))
    (Invoke (CliPost "https://exa mple.com" ["a=1"]))
    = mkProcess [] ("error: " ++ "invalid domain character") 2.
Proof.
  assert (H : url_parse (demo_libs (ok_response [] "hi")) "https://exa mple.com"
              = Err "invalid domain character") by reflexivity.
  split; [exact H|].
  exact (proj2 (parse_url_error_before_network _ _ _
                  (mkEnv (Ok tt) (Err "no TLS backend") (Some 0)) eq_refl H) ["a=1"]).
Defined.

(** C10: the URL stored and requested is the serialisation of the parsed
    URL, [String::from(Url::parse(url)?)], not the raw argument. *)
Theorem parse_url_serializes (L : Libs) (u : string) (x : url L) :
  url_parse L u = Ok x ->
  parse_url L u = Ok (url_serialize L x) /\
  head (trace (run_main L (CliGet u))) = Some (Send (mkRequest GET (url_serialize L x) None)) /\
  (forall bs kvs, parse_all parse_kv_pair (flat_map (split_on ",") bs) = Ok kvs ->
     head (trace (run_main L (CliPost u bs))) =
       Some (Send (mkRequest POST (url_serialize L x) (Some (Body.post_json (bucket L) kvs))))).
Proof.
  intros H. unfold parse_url. rewrite H. split; [done|].
  unfold run_main, parse_opts, parse_url. rewrite H. split.
  - cbn [run_subcommand]. unfold get. rewrite emit_bind.
    by destruct (snd _).
  - intros bs kvs Hkv. rewrite Hkv. cbn [run_subcommand]. unfold post.
    rewrite emit_bind. by destruct (snd _).
Qed.

Lemma parse_url_serializes_witness :
  url_parse (demo_libs (ok_response [] "hi")) "https://example.com" = Ok "https://example.com" /\
  head (trace (run_main (demo_libs (ok_response [] "hi")) (CliGet "https://example.com")))
    = Some (Send (mkRequest GET "https://example.com/" None)) /\
  "https://example.com/" <> "https://example.com".
Proof.
  assert (H : url_parse (demo_libs (ok_response [] "hi")) "https://example.com"
              = Ok "https://example.com") by reflexivity.
  split; [exact H|]. split; [|discriminate].
  exact (proj1 (proj2 (parse_url_serializes _ _ _ H))).
Defined.

End MainClaims.

(* ================================================================== *)
(** * Further properties of the code *)

(** ** Splitting on a separator *)
Module SplitFacts.
Import KvParse Spec KvParseFacts.

Lemma no_eq_no_char (s : string) : no_eq s = no_char "=" s.
Proof.
  induction s as [|ch rest IH]; [done|]. unfold no_char in *. simpl. by rewrite IH.
Qed.

(** [split] on [a ++ c ++ b] splits [a] and [b] separately. *)
Lemma split_on_app_sep (c : ascii) (a b : string) :
  split_on c (a ++ String c b) = app (split_on c a) (split_on c b).
Proof.
  induction a as [|ch a IH]; simpl.
  - by rewrite Ascii.eqb_refl.
  - rewrite IH. destruct (Ascii.eqb ch c); [done|].
    destruct (split_on c a) as [|p ps] eqn:E; [by apply split_on_nonempty in E|].
    done.
Qed.

(** Joining the pieces gives the string back. *)
Lemma join_split (c : ascii) (s : string) : join_on c (split_on c s) = s.
Proof.
  induction s as [|ch rest IH]; [done|]. simpl.
  destruct (Ascii.eqb ch c) eqn:E.
  - apply Ascii.eqb_eq in E as ->.
    destruct (split_on c rest) as [|p ps] eqn:Hs; [by apply split_on_nonempty in Hs|].
    rewrite <- IH. reflexivity.
  - destruct (split_on c rest) as [|p ps] eqn:Hs; [by apply split_on_nonempty in Hs|].
    rewrite <- IH. destruct ps; reflexivity.
Qed.

(** No piece contains the separator. *)
Lemma split_pieces_no_char (c : ascii) (s : string) :
  Forall (fun p => no_char c p = true) (split_on c s).
Proof.
  induction s as [|ch rest IH]; simpl; [by repeat constructor|].
  destruct (Ascii.eqb ch c) eqn:E; [by constructor|].
  destruct (split_on c rest) as [|p ps]; [by repeat constructor; unfold no_char; simpl; rewrite E|].
  inversion IH as [|? ? Hp Hps]; subst. constructor; [|done].
  unfold no_char in *. simpl. by rewrite E, Hp.
Qed.

(** A string that contains [c] splits into at least two pieces. *)
Lemma split_on_two (c : ascii) (s : string) :
  no_char c s = false -> exists p1 p2 ps, split_on c s = p1 :: p2 :: ps.
Proof.
  induction s as [|ch rest IH]; [done|]. unfold no_char. simpl.
  destruct (Ascii.eqb ch c) eqn:E; simpl.
  - intros _. destruct (split_on c rest) as [|p ps] eqn:Hs;
      [by apply split_on_nonempty in Hs|]. eauto.
  - intros H. destruct (IH H) as (p1 & p2 & ps & ->). eauto.
Qed.

Lemma parse_all_Forall2 {A} (f : string -> result A) (l : list string) (xs : list A) :
  Program.parse_all f l = Ok xs <-> Forall2 (fun t x => f t = Ok x) l xs.
Proof.
  revert xs. induction l as [|t l IH]; intros xs; simpl.
  - split; [intros [= <-]; constructor|]. intros H. by inversion H.
  - destruct (f t) as [a|e] eqn:Ef.
    + destruct (Program.parse_all f l) as [rest|e] eqn:Er.
      * split; [intros [= <-]; constructor; [done|by apply IH]|].
        intros H. inversion H as [|? x ? xs' Hx Hxs]; subst.
        rewrite Ef in Hx. injection Hx as ->. apply IH in Hxs. congruence.
      * split; [discriminate|]. intros H. inversion H as [|? x ? xs' Hx Hxs]; subst.
        apply IH in Hxs. congruence.
    + split; [discriminate|]. intros H. inversion H; congruence.
Qed.

End SplitFacts.

Module KvParseExtras.
Import KvParse Render Program Spec KvParseFacts SplitFacts.

(** X1: a token [key=value] whose key and value contain no ['='] parses
    back to exactly that key and value (an empty key or value included). *)
Theorem from_str_roundtrip (key value : string) :
  no_eq key = true -> no_eq value = true ->
  from_str (key ++ "=" ++ value) = Ok (mkKvPair key value).
Proof.
  intros Hk Hv. rewrite no_eq_no_char in Hk, Hv.
  unfold from_str, split_eq. change ("=" ++ value) with (String "=" value).
  rewrite split_on_app_sep.
  rewrite (split_on_no_sep "=" key Hk), (split_on_no_sep "=" value Hv). done.
Qed.

Lemma from_str_roundtrip_witness :
  no_eq "name" = true /\ no_eq "joe" = true /\
  from_str ("name" ++ "=" ++ "joe") = Ok (mkKvPair "name" "joe").
Proof.
  assert (Hk : no_eq "name" = true) by reflexivity.
  assert (Hv : no_eq "joe" = true) by reflexivity.
  split; [exact Hk|]. split; [exact Hv|]. exact (from_str_roundtrip _ _ Hk Hv).
Defined.

(** X2: [from_str] fails exactly on the tokens without ['='], and then
    always with the ["no value found"] error. *)
Theorem from_str_error_iff (s : string) (e : string) :
  from_str s = Err e <-> no_eq s = true /\ e = "Failed to parse: no value found".
Proof.
  split.
  - intros H. destruct (no_eq s) eqn:Hs.
    + rewrite from_str_no_eq in H by done. injection H as <-. done.
    + rewrite no_eq_no_char in Hs. apply split_on_two in Hs as (p1 & p2 & ps & Hs).
      unfold from_str, split_eq in H. rewrite Hs in H. discriminate.
  - intros [Hs ->]. by apply from_str_no_eq.
Qed.

(** X3: a parsed pair holds the text before the first ['='] as its key
    and the text up to the next ['='] (or the end) as its value; both
    contain no ['='], and anything after a second ['='] is dropped. *)
Theorem from_str_shape (s : string) (kv : KvPair) :
  from_str s = Ok kv ->
  no_eq (k kv) = true /\ no_eq (v kv) = true /\
  (s = k kv ++ "=" ++ v kv \/ exists rest, s = k kv ++ "=" ++ v kv ++ "=" ++ rest).
Proof.
  unfold from_str, split_eq. intros H.
  pose proof (join_split "=" s) as Hj. pose proof (split_pieces_no_char "=" s) as Hp.
  destruct (split_on "=" s) as [|p1 [|p2 ps]]; try discriminate.
  injection H as <-. simpl. rewrite !no_eq_no_char.
  rewrite !Forall_cons in Hp. destruct Hp as (H1 & H2 & _).
  split; [done|]. split; [done|].
  simpl in Hj. destruct ps as [|p3 ps].
  - left. by rewrite <- Hj.
  - right. exists (join_on "=" (p3 :: ps)). by rewrite <- Hj.
Qed.

Lemma from_str_shape_witness :
  from_str "a=b=c" = Ok (mkKvPair "a" "b") /\
  exists rest, "a=b=c" = "a" ++ "=" ++ "b" ++ "=" ++ rest.
Proof.
  assert (H : from_str "a=b=c" = Ok (mkKvPair "a" "b")) by reflexivity.
  split; [exact H|].
  destruct (from_str_shape _ _ H) as (_ & _ & [Heq|Hr]); [discriminate|exact Hr].
Defined.

(** X4: clap's [value_delimiter = ',']: a [-b] value [s1,s2] parses
    exactly as the two values [s1] and [s2] given separately. *)
Theorem post_comma_split (L : Libs) (u s1 s2 : string) (bs1 bs2 : list string) :
  parse_opts L (CliPost u (app bs1 ((s1 ++ "," ++ s2) :: bs2))) =
  parse_opts L (CliPost u (app bs1 (s1 :: s2 :: bs2))).
Proof.
  unfold parse_opts. rewrite !flat_map_app. cbn [flat_map].
  change ("," ++ s2) with (String "," s2). rewrite split_on_app_sep.
  by rewrite <- app_assoc.
Qed.

(** X5: the [post] arguments parse exactly when the URL parses and every
    comma-separated body token parses; the pairs are then the parsed
    tokens, in order.  One bad token rejects the whole command line. *)
Theorem post_args_parse (L : Libs) (u : string) (bs : list string) (sc : SubCommands) :
  parse_opts L (CliPost u bs) = Ok sc <->
  exists s kvs, sc = Post s kvs /\ parse_url L u = Ok s /\
    Forall2 (fun t kv => parse_kv_pair t = Ok kv) (flat_map (split_on ",") bs) kvs.
Proof.
  unfold parse_opts. destruct (parse_url L u) as [s|e].
  - destruct (parse_all parse_kv_pair (flat_map (split_on ",") bs)) as [kvs|e] eqn:E.
    + split.
      * intros [= <-]. exists s, kvs. split; [done|]. split; [done|].
        by apply parse_all_Forall2.
      * intros (s' & kvs' & -> & [= <-] & H). apply parse_all_Forall2 in H.
        congruence.
    + split; [discriminate|]. intros (s' & kvs' & -> & [= <-] & H).
      apply parse_all_Forall2 in H. congruence.
  - split; [discriminate|]. intros (s' & kvs' & _ & H & _). discriminate.
Qed.

End KvParseExtras.

(** ** The POST body *)
Module BodyExtras.
Import KvParse Body BodyFacts.

Lemma fold_insert_lookup_some (body : list KvPair) (m : gmap string string) (x y : string) :
  fold_left (fun m kv => <[k kv := v kv]> m) body m !! x = Some y ->
  m !! x = Some y \/ mkKvPair x y ∈ body.
Proof.
  revert m. induction body as [|kv rest IH]; intros m H; simpl in *; [by left|].
  destruct (IH _ H) as [Hm|Hin]; [|right; by apply elem_of_cons; right].
  rewrite lookup_insert in Hm. case_decide as Heq.
  - injection Hm as <-. subst. right. apply elem_of_cons. left. by destruct kv.
  - by left.
Qed.

Lemma insertion_keys_nil (body : list KvPair) : insertion_keys body = [] <-> body = [].
Proof. destruct body; simpl; split; done. Qed.

(** X6: the JSON body has one member per distinct key of the pairs; it
    is the empty object exactly when no pair is given. *)
Theorem post_json_size (bucket : string -> nat) (body : list KvPair) :
  List.length (members (post_json bucket body)) = List.length (insertion_keys body) /\
  (members (post_json bucket body) = [] <-> body = []).
Proof.
  pose proof (post_json_keys_perm bucket body) as Hp.
  assert (Hl : List.length (members (post_json bucket body)) = List.length (insertion_keys body)).
  { rewrite <- (length_map fst). by apply Permutation_length. }
  split; [done|]. rewrite <- insertion_keys_nil.
  split; intros H; apply length_zero_iff_nil.
  - by rewrite <- Hl, H.
  - by rewrite Hl, H.
Qed.

(** X7: every member of the JSON body is a key and value given on the
    command line, unchanged (no value is coerced or made up). *)
Theorem post_json_member_from_body (bucket : string -> nat) (body : list KvPair)
    (key val : string) :
  (key, val) ∈ members (post_json bucket body) -> mkKvPair key val ∈ body.
Proof.
  intros H. apply post_json_elem in H. unfold post_map in H.
  destruct (fold_insert_lookup_some body ∅ key val H) as [He|Hin]; [|done].
  by rewrite lookup_empty in He.
Qed.

Lemma post_json_member_from_body_witness :
  ("age", "5") ∈ members (post_json String.length
                   [mkKvPair "name" "joe"; mkKvPair "age" "5"]) /\
  mkKvPair "age" "5" ∈ [mkKvPair "name" "joe"; mkKvPair "age" "5"].
Proof.
  assert (H : ("age", "5") ∈ members (post_json String.length
                   [mkKvPair "name" "joe"; mkKvPair "age" "5"])).
  { apply (bool_decide_unpack _). vm_compute. exact I. }
  split; [exact H|]. exact (post_json_member_from_body _ _ _ _ H).
Defined.

End BodyExtras.

(** ** Highlighting and headers *)
Module RenderExtras.
Import Render Program Spec Demo HeaderFacts RenderFacts.

(** stdpp makes [String.append] opaque to [simpl]; these proofs compute
    with it. *)
#[local] Arguments String.append : simpl nomatch.

Lemma string_app_assoc (a b c : string) : (a ++ b) ++ c = a ++ (b ++ c).
Proof. induction a as [|ch a IH]; simpl; congruence. Qed.

Lemma string_app_nil_r (a : string) : a ++ "" = a.
Proof. induction a as [|ch a IH]; simpl; congruence. Qed.

Lemma no_char_app (c : ascii) (a b : string) :
  no_char c (a ++ b) = no_char c a && no_char c b.
Proof.
  induction a as [|ch a IH]; [done|]. unfold no_char in *. simpl.
  rewrite IH. by rewrite andb_assoc.
Qed.

Abbreviation nl := "010"%char.

Lemma lines_go_spec (cur s : string) :
  no_char nl cur = true ->
  let ls := lines_go cur s in
  fold_right String.append "" ls = cur ++ s /\
  Forall (fun l => l <> "") ls /\
  Forall (fun l => exists l', no_char nl l' = true /\ (l = l' \/ l = l' ++ newline)) ls /\
  Forall (fun l => exists l', l = l' ++ newline) (removelast ls).
Proof.
  revert cur. induction s as [|ch rest IH]; intros cur Hcur; simpl.
  - destruct (String.eqb cur "") eqn:E.
    + apply String.eqb_eq in E as ->. repeat split; constructor.
    + apply String.eqb_neq in E. simpl. rewrite string_app_nil_r.
      repeat split; repeat constructor; eauto.
  - destruct (Ascii.eqb ch nl) eqn:Ech.
    + apply Ascii.eqb_eq in Ech as ->.
      destruct (IH "" eq_refl) as (Hc & Hne & Hf & Hr). simpl in Hc.
      cbn zeta in *. simpl. rewrite Hc, string_app_assoc. split; [done|].
      split; [constructor; [by destruct cur|done]|].
      split; [constructor; [exists cur; split; [done|right; done]|done]|].
      destruct (lines_go "" rest); [constructor|].
      constructor; [by exists cur|done].
    + assert (Hcur' : no_char nl (cur ++ String ch EmptyString) = true).
      { rewrite no_char_app, Hcur. unfold no_char. simpl. rewrite Ech. done. }
      destruct (IH _ Hcur') as (Hc & Hne & Hf & Hr). cbn zeta in *.
      rewrite Hc, string_app_assoc. done.
Qed.

(** X8: [LinesWithEndings], which feeds the highlighter, cuts the body
    into non-empty lines that concatenate back to the body: every line
    but the last ends with its newline, and no line has a newline
    elsewhere. *)
Theorem lines_with_endings_spec (s : string) :
  fold_right String.append "" (lines_with_endings s) = s /\
  Forall (fun l => l <> "") (lines_with_endings s) /\
  Forall (fun l => exists l', no_char nl l' = true /\ (l = l' \/ l = l' ++ newline))
         (lines_with_endings s) /\
  Forall (fun l => exists l', l = l' ++ newline) (removelast (lines_with_endings s)).
Proof. apply (lines_go_spec "" s eq_refl). Qed.

Lemma highlight_lines_length (L : Libs) (st : hl_state L) (lines : list string) :
  (forall st line, exists p, highlight_line L st line = Ok p) ->
  List.length (fst (highlight_lines L st lines)) = List.length lines /\
  Forall (fun e => exists s, e = Raw s) (fst (highlight_lines L st lines)).
Proof.
  intros Hhl. revert st. induction lines as [|line rest IH]; intros st; simpl.
  - split; [done|constructor].
  - destruct (Hhl st line) as [p Hp]. rewrite Hp. simpl.
    destruct (IH p.2) as [Hl Hf].
    destruct (highlight_lines L p.2 rest) as [o x]. simpl in *.
    split; [by rewrite Hl|]. constructor; [by eexists|done].
Qed.

(** X10: when the grammar is found and highlighting does not fail,
    [print_with_syntect] prints one [print!] fragment per line of the
    body, and nothing else. *)
Theorem print_with_syntect_per_line (L : Libs) (s ext : string) :
  find_syntax_by_extension L ext <> None ->
  (forall st line, exists p, highlight_line L st line = Ok p) ->
  List.length (fst (print_with_syntect L s ext)) = List.length (lines_with_endings s) /\
  Forall (fun e => exists t, e = Raw t) (fst (print_with_syntect L s ext)).
Proof.
  intros Hf Hhl. unfold print_with_syntect.
  destruct (find_syntax_by_extension L ext) as [syn|]; [|done]. simpl.
  destruct (highlight_lines_length L (hl_new L syn) (lines_with_endings s) Hhl) as [Hl Hr].
  destruct (highlight_lines L (hl_new L syn) (lines_with_endings s)). done.
Qed.

Lemma print_with_syntect_per_line_witness :
  find_syntax_by_extension (demo_libs (ok_response [] "")) "json" <> None /\
  List.length (fst (print_with_syntect (demo_libs (ok_response [] "")) "ab" "json")) = 1.
Proof.
  assert (Hf : find_syntax_by_extension (demo_libs (ok_response [] "")) "json" <> None)
    by discriminate.
  assert (Hhl : forall st line, exists p,
            highlight_line (demo_libs (ok_response [] "")) st line = Ok p)
    by (intros st line; eexists; reflexivity).
  split; [exact Hf|].
  exact (proj1 (print_with_syntect_per_line _ "ab" "json" Hf Hhl)).
Defined.

Lemma hm_iter_append (h : header_map) (n : string) (val : list Byte.byte) :
  hm_iter (hm_append h n val) ≡ₚ app (hm_iter h) [(n, val)].
Proof.
  induction h as [|[m vs] rest IH]; simpl; [done|].
  destruct (String.eqb n m) eqn:E.
  - apply String.eqb_eq in E as ->. simpl. rewrite map_app. simpl.
    rewrite <- !app_assoc. apply Permutation_app_head. simpl.
    apply Permutation_cons_append.
  - simpl. rewrite IH. by rewrite app_assoc.
Qed.

(** X11: [print_header] prints every received header line exactly once
    (the header map only reorders them). *)
Theorem print_header_all_once (r : response) :
  fst (print_header r) ≡ₚ map (fun nv => HeaderLine nv.1 nv.2) (received r).
Proof.
  rewrite print_header_eq. simpl. apply Permutation_map.
  unfold headers, headers_of. generalize (received r) as rcv. intros rcv.
  induction rcv as [|nv rcv IH] using rev_ind; [done|].
  rewrite fold_left_app. simpl. rewrite hm_iter_append, IH.
  by destruct nv.
Qed.

End RenderExtras.

(** ** The whole run *)
Module MainExtras.
Import KvParse Render Program Spec Demo RenderFacts MainFacts ExecFacts.

Lemma cut_stdout_prefix (k : nat) (o o' : list event) :
  cut_stdout k o = Some o' -> exists t, o = app o' t.
Proof.
  revert k o'. induction o as [|e o IH]; intros k o' H; simpl in H; [discriminate|].
  destruct (is_stdout e).
  - destruct k as [|k].
    + injection H as <-. by exists (e :: o).
    + destruct (cut_stdout k o) as [o1|] eqn:E; [|discriminate].
      injection H as <-. destruct (IH _ _ E) as [t ->]. by exists t.
  - destruct (cut_stdout k o) as [o1|] eqn:E; [|discriminate].
    injection H as <-. destruct (IH _ _ E) as [t ->]. by exists t.
Qed.

Lemma with_stdout_one_send (f : option nat) (p : process) (req : request) (o : list event) :
  trace p = Send req :: o -> sends o = [] ->
  exists o', trace (with_stdout f p) = Send req :: o' /\ sends o' = [].
Proof.
  intros Hp Ho. destruct f as [k|]; simpl; [|by exists o].
  rewrite Hp. simpl.
  destruct (cut_stdout k o) as [o1|] eqn:E; simpl; [|by exists o].
  exists o1. split; [done|].
  destruct (cut_stdout_prefix k o o1 E) as [t ->].
  unfold sends in *. rewrite List.filter_app in Ho. by apply app_eq_nil in Ho as [-> _].
Qed.

(** X12: a run sends at most one request.  It sends one, as its first
    event, exactly when the runtime builds, clap finds a subcommand whose
    values parse and [Client::new()] succeeds; help and version output,
    usage errors and the panics before the request send nothing. *)
Theorem exec_one_request (L : Libs) (en : env) (i : invocation) :
  match runtime_build en, i with
  | Ok _, Invoke c =>
      match parse_opts L c, client_new en with
      | Ok _, Ok _ =>
          exists req, head (trace (exec L en i)) = Some (Send req) /\
                      sends (trace (exec L en i)) = [Send req]
      | _, _ => sends (trace (exec L en i)) = []
      end
  | _, _ => sends (trace (exec L en i)) = []
  end.
Proof.
  unfold exec. destruct (runtime_build en) as [[]|m]; [|done].
  destruct i as [c|e|out]; [|done|].
  2: { destruct (stdout_fail en) as [[|k]|]; done. }
  destruct (parse_opts L c) as [sc|e] eqn:Hp; [|done].
  destruct (client_new en) as [[]|m]; [|done].
  destruct (run_subcommand_one_send L sc) as (req & rest & Hrun & Hq & _).
  assert (Ht : trace (run_main L c) = Send req :: fst rest).
  { unfold run_main. rewrite Hp, Hrun. by destruct (snd rest). }
  destruct (with_stdout_one_send (stdout_fail en) _ _ _ Ht Hq) as (o' & Ho & Hq').
  rewrite Ho. exists req. split; [done|]. unfold sends in *. simpl. by rewrite Hq'.
Qed.

(** X13: when the transport fails, the run exits with status 1 and the
    transport's error after sending the request, and prints nothing to
    standard output. *)
Theorem run_main_transport_error (L : Libs) (c : cli) (sc : SubCommands) (e : string) :
  parse_opts L c = Ok sc ->
  (forall req, send L req = Err e) ->
  exists req, run_main L c = mkProcess [Send req] ("Error: " ++ e) 1.
Proof.
  intros Hp Hs. unfold run_main. rewrite Hp.
  destruct (run_subcommand_one_send L sc) as (req & rest & Hrun & _ & ->).
  rewrite Hrun, Hs. exists req. reflexivity.
Qed.

Lemma run_main_transport_error_witness :
  parse_opts (failing_libs "dns error") (CliGet "https://example.com")
    = Ok (Get "https://example.com/") /\
  exists req, run_main (failing_libs "dns error") (CliGet "https://example.com")
                = mkProcess [Send req] ("Error: " ++ "dns error") 1.
Proof.
  assert (Hp : parse_opts (failing_libs "dns error") (CliGet "https://example.com")
               = Ok (Get "https://example.com/")) by reflexivity.
  split; [exact Hp|].
  exact (run_main_transport_error _ _ _ "dns error" Hp (fun _ => eq_refl)).
Defined.

End MainExtras.
